(** * Firestore value decoding and write sentinels

    A shallow embedding of two files of the Firestore client:

    - [packages/firestore/src/api/user_data_writer.ts], the class
      [UserDataWriter] that converts wire values ([ProtoValue]) into the
      values handed to the user (module [Writer] below);
    - the lite [FieldValue] facade with its delegate wrapper and the five
      sentinel factories (module [Sentinel] below).

    Thrown exceptions are results ([Thrown]), the diagnostic sink written
    by [logError] is a log threaded through every call, and [new] draws
    object identities from an allocation counter.  The definitions come
    first, the properties after them, and module [Examples] runs them on
    a concrete platform. *)

From Stdlib Require Import List String Ascii Bool Arith ZArith Lia.
Import ListNotations.
Local Open Scope string_scope.

Set Warnings "-register-all".

(** ** The platform and the collaborators of the decoder

    Everything the decoder imports but does not define: the host number
    type with the truthiness JavaScript gives it, the platform's
    [Number(string)] conversion, the wire shapes of timestamps and byte
    strings with their normalisers, the path parser and the resource-name
    validator, and the two user-facing types built by injected factories. *)
Class Host : Type := {
  num : Type;
  (** the number zero *)
  num_zero : num;
  (** JavaScript truthiness of a number: false on zero and NaN *)
  num_truthy : num -> bool;
  (** [Number(s)] *)
  Number : string -> num;
  ProtoTimestamp : Type;
  ProtoBytes : Type;
  ByteString : Type;
  Bytes : Type;
  Reference : Type;
  normalizeTimestamp : ProtoTimestamp -> num * num;
  normalizeByteString : ProtoBytes -> ByteString;
  (** [ResourcePath.fromString]: the segments of a resource name *)
  fromString : string -> list string;
  isValidResourceName : list string -> bool
}.

Module Writer.

Section UserDataWriter.

Context {host : Host}.

(** *** Wire values *)

(** A numeric field of the wire format holds [string | number]. *)
Inductive NumRep : Type :=
| RepNumber (n : num)
| RepString (s : string).

(** [ProtoLatLng]: both coordinates are optional fields. *)
Record ProtoLatLng : Type := mkLatLng {
  latitude : option NumRep;
  longitude : option NumRep
}.

(** Modelled from the spec: the wire value of [protos/firestore_proto_api]
    (not under src/), a tagged union over the eleven variants of the spec's
    data model.  The fields are the ones [convertValue] reads; an optional
    field that may be absent is an [option].  [UnsetV] is a value on which
    no recognised field is populated. *)
Inductive Value : Type :=
| NullV
| BooleanV (booleanValue : bool)
| NumberV (integerValue doubleValue : option NumRep)
| TimestampV (timestampValue : ProtoTimestamp)
| ServerTimestampV (localWriteTime : ProtoTimestamp)
                   (previousValue : option Value)
| StringV (stringValue : string)
| BlobV (bytesValue : ProtoBytes)
| RefV (referenceValue : string)
| GeoPointV (geoPointValue : ProtoLatLng)
| ArrayV (values : option (list Value))
| MapV (fields : option (list (string * Value)))
| UnsetV.

Inductive TypeOrder : Type :=
| NullValue | BooleanValue | NumberValue | TimestampValue
| ServerTimestampValue | StringValue | BlobValue | RefValue
| GeoPointValue | ArrayValue | ObjectValue.

(** Modelled from the spec: [typeOrder] of [model/values] (not under
    src/), the type-order tag of a wire value; [None] when the value
    matches none of the eleven variants. *)
Definition typeOrder (value : Value) : option TypeOrder :=
  match value with
  | NullV => Some NullValue
  | BooleanV _ => Some BooleanValue
  | NumberV _ _ => Some NumberValue
  | TimestampV _ => Some TimestampValue
  | ServerTimestampV _ _ => Some ServerTimestampValue
  | StringV _ => Some StringValue
  | BlobV _ => Some BlobValue
  | RefV _ => Some RefValue
  | GeoPointV _ => Some GeoPointValue
  | ArrayV _ => Some ArrayValue
  | MapV _ => Some ObjectValue
  | UnsetV => None
  end.

(** Modelled from the spec: [getLocalWriteTime] of
    [model/server_timestamps] (not under src/), the local write time
    attached to a ServerTimestamp value. *)
Definition getLocalWriteTime (value : Value) : option ProtoTimestamp :=
  match value with
  | ServerTimestampV t _ => Some t
  | _ => None
  end.

(** Modelled from the spec: [getPreviousValue] of
    [model/server_timestamps] (not under src/), the previous value
    attached to a ServerTimestamp value, absent when there is none. *)
Definition getPreviousValue (value : Value) : option Value :=
  match value with
  | ServerTimestampV _ p => p
  | _ => None
  end.

(** *** Host values *)

Record Timestamp : Type := mkTimestamp {
  seconds : num;
  nanoseconds : num
}.

Record GeoPoint : Type := mkGeoPoint {
  geo_latitude : num;
  geo_longitude : num
}.

Inductive HostValue : Type :=
| HNull
| HBoolean (b : bool)
| HNumber (n : num)
| HTimestamp (t : Timestamp)
| HString (s : string)
| HBytes (b : Bytes)
| HReference (r : Reference)
| HGeoPoint (g : GeoPoint)
| HArray (elements : list HostValue)
| HObject (properties : list (string * HostValue)).

(** A JavaScript object as the list of its own properties in iteration
    order. *)
Definition DocumentData : Type := list (string * HostValue).

(** [result[key] = v]: an existing property keeps its place and takes the
    new value, a new property goes last. *)
Fixpoint obj_set (key : string) (v : HostValue) (o : DocumentData)
  : DocumentData :=
  match o with
  | [] => [(key, v)]
  | (k, x) :: rest =>
      if String.eqb k key then (k, v) :: rest
      else (k, x) :: obj_set key v rest
  end.

(** *** Paths, keys and database identities *)

Definition ResourcePath : Type := list string.

(** [path.get(i)] is [segments[i]], which is [undefined] past the end. *)
Definition get (i : nat) (path : ResourcePath) : option string :=
  nth_error path i.

Definition popFirst (size : nat) (path : ResourcePath) : ResourcePath :=
  skipn size path.

Record DocumentKey : Type := mkDocumentKey { path : ResourcePath }.

(** Modelled from the spec: [DatabaseId] of [core/database_info] (not
    under src/), a project id and a database name compared
    structurally.  A field read from a path that is too short holds
    [undefined], here [None]. *)
Record DatabaseId : Type := mkDatabaseId {
  projectId : option string;
  database : option string
}.

Definition option_string_eqb (a b : option string) : bool :=
  match a, b with
  | Some x, Some y => String.eqb x y
  | None, None => true
  | _, _ => false
  end.

Definition DatabaseId_isEqual (a b : DatabaseId) : bool :=
  option_string_eqb (projectId a) (projectId b)
  && option_string_eqb (database a) (database b).

(** *** Effects: thrown failures and the diagnostic log *)

Inductive Failure : Type :=
| InvalidValueType (value : Value)
| ReferenceValueNotValid (name : string).

Inductive Res (A : Type) : Type :=
| Ok (a : A)
| Thrown (e : Failure).
Arguments Ok {A} a.
Arguments Thrown {A} e.

Definition Log : Type := list string.

Definition M (A : Type) : Type := Log -> Res A * Log.

Definition ret {A} (a : A) : M A := fun log => (Ok a, log).

Definition bind {A B} (m : M A) (k : A -> M B) : M B :=
  fun log =>
    match m log with
    | (Ok a, log') => k a log'
    | (Thrown e, log') => (Thrown e, log')
    end.

Definition fail {A} (e : Failure) : M A := fun log => (Thrown e, log).

Definition hardAssert (assertion : bool) (e : Failure) : M unit :=
  if assertion then ret tt else fail e.

Definition logError (msg : string) : M unit :=
  fun log => (Ok tt, (log ++ [msg])%list).

Notation "x <- m ;; k" := (bind m (fun x => k))
  (at level 61, m at next level, right associativity).

(** [list.map(f)] with a callback that may throw: left to right, the
    first failure aborts. *)
Definition mapM {A B} (f : A -> M B) : list A -> M (list B) :=
  fix go (l : list A) : M (list B) :=
    match l with
    | [] => ret []
    | a :: rest => b <- f a ;; bs <- go rest ;; ret (b :: bs)
    end.

(** [forEach(obj, fn)] of [util/obj] with a callback that updates the
    object under construction: the own properties in iteration order. *)
Definition forEach {A S} (fn : string -> A -> S -> M S)
  : list (string * A) -> S -> M S :=
  fix go (l : list (string * A)) (acc : S) : M S :=
    match l with
    | [] => ret acc
    | (key, value) :: rest => acc' <- fn key value acc ;; go rest acc'
    end.

(** *** The decoder *)

Inductive ServerTimestampBehavior : Type :=
| estimate
| previous
| none.

Record UserDataWriter : Type := mkUserDataWriter {
  databaseId : DatabaseId;
  referenceFactory : DocumentKey -> Reference;
  bytesFactory : ByteString -> Bytes
}.

(** [a || b] on two optional numeric fields: the left operand when it is
    truthy, the right operand otherwise.  A string is truthy unless
    empty; [undefined] is falsy. *)
Definition rep_truthy (r : NumRep) : bool :=
  match r with
  | RepNumber n => num_truthy n
  | RepString s => negb (String.eqb s "")
  end.

Definition js_or (a b : option NumRep) : option NumRep :=
  match a with
  | Some r => if rep_truthy r then a else b
  | None => b
  end.

(** Modelled from the spec: [normalizeNumber] of [model/values] (not
    under src/).  A number is kept as it is, a string goes through the
    platform's [Number], and an absent representation is the host zero,
    which is what the spec's numeric normalisation asks of an integer
    zero. *)
Definition normalizeNumber (value : option NumRep) : num :=
  match value with
  | Some (RepNumber n) => n
  | Some (RepString s) => Number s
  | None => num_zero
  end.

Definition convertTimestamp (value : ProtoTimestamp) : Timestamp :=
  let normalizedValue := normalizeTimestamp value in
  mkTimestamp (fst normalizedValue) (snd normalizedValue).

Definition convertGeoPoint (value : ProtoLatLng) : GeoPoint :=
  mkGeoPoint (normalizeNumber (latitude value))
             (normalizeNumber (longitude value)).

Definition show (s : option string) : string :=
  match s with
  | Some x => x
  | None => "undefined"
  end.

Definition canonicalString (p : ResourcePath) : string :=
  String.concat "/" p.

Definition foreignReferenceMessage (key : DocumentKey)
  (found local : DatabaseId) : string :=
  "Document " ++ canonicalString (path key)
  ++ " contains a document reference within a different database ("
  ++ show (projectId found) ++ "/" ++ show (database found)
  ++ ") which is not supported. It will be treated as a reference in"
  ++ " the current database ("
  ++ show (projectId local) ++ "/" ++ show (database local)
  ++ ") instead.".

Variable this : UserDataWriter.

Definition convertReference (name : string) : M HostValue :=
  let resourcePath := fromString name in
  _ <- hardAssert (isValidResourceName resourcePath)
                  (ReferenceValueNotValid name) ;;
  let databaseId' :=
    mkDatabaseId (get 1 resourcePath) (get 3 resourcePath) in
  let key := mkDocumentKey (popFirst 5 resourcePath) in
  _ <- (if negb (DatabaseId_isEqual databaseId' (databaseId this))
        then logError
               (foreignReferenceMessage key databaseId' (databaseId this))
        else ret tt) ;;
  ret (HReference (referenceFactory this key)).

Fixpoint convertValue (value : Value)
  (serverTimestampBehavior : ServerTimestampBehavior) {struct value}
  : M HostValue :=
  match value with
  | NullV => ret HNull
  | BooleanV booleanValue => ret (HBoolean booleanValue)
  | NumberV integerValue doubleValue =>
      ret (HNumber (normalizeNumber (js_or integerValue doubleValue)))
  | TimestampV timestampValue =>
      ret (HTimestamp (convertTimestamp timestampValue))
  | ServerTimestampV localWriteTime previousValue =>
      (* convertServerTimestamp *)
      match serverTimestampBehavior with
      | previous =>
          match previousValue with
          | None => ret HNull
          | Some p => convertValue p serverTimestampBehavior
          end
      | estimate => ret (HTimestamp (convertTimestamp localWriteTime))
      | none => ret HNull
      end
  | StringV stringValue => ret (HString stringValue)
  | BlobV bytesValue =>
      ret (HBytes (bytesFactory this (normalizeByteString bytesValue)))
  | RefV referenceValue => convertReference referenceValue
  | GeoPointV geoPointValue => ret (HGeoPoint (convertGeoPoint geoPointValue))
  | ArrayV values =>
      (* convertArray: (arrayValue.values || []).map(...) *)
      match values with
      | Some l =>
          r <- mapM (fun v => convertValue v serverTimestampBehavior) l ;;
          ret (HArray r)
      | None => ret (HArray [])
      end
  | MapV fields =>
      (* convertObject: forEach(mapValue.fields || {}, ...) *)
      match fields with
      | Some l =>
          r <- forEach
                 (fun key v (result : DocumentData) =>
                    h <- convertValue v serverTimestampBehavior ;;
                    ret (obj_set key h result))
                 l [] ;;
          ret (HObject r)
      | None => ret (HObject [])
      end
  | UnsetV => fail (InvalidValueType value)
  end.

(** The methods [convertArray] and [convertObject] as the class writes
    them; [convertValue] above inlines them for the recursion. *)
Definition or_empty {A} (l : option (list A)) : list A :=
  match l with
  | Some x => x
  | None => []
  end.

Definition convertArray (values : option (list Value))
  (serverTimestampBehavior : ServerTimestampBehavior) : M HostValue :=
  r <- mapM (fun v => convertValue v serverTimestampBehavior)
            (or_empty values) ;;
  ret (HArray r).

Definition storeField (serverTimestampBehavior : ServerTimestampBehavior)
  (key : string) (v : Value) (result : DocumentData) : M DocumentData :=
  h <- convertValue v serverTimestampBehavior ;;
  ret (obj_set key h result).

Definition convertObject (fields : option (list (string * Value)))
  (serverTimestampBehavior : ServerTimestampBehavior) : M HostValue :=
  r <- forEach (storeField serverTimestampBehavior) (or_empty fields) [] ;;
  ret (HObject r).

(** *** Observations on a call *)

(** The value a conversion returns and the diagnostics it emits, started
    on an empty log. *)
Definition value_of (value : Value) (b : ServerTimestampBehavior)
  : Res HostValue :=
  fst (convertValue value b []).

Definition emitted (value : Value) (b : ServerTimestampBehavior) : Log :=
  snd (convertValue value b []).

Definition throws {A} (r : Res A * Log) : Prop :=
  exists e, fst r = Thrown e.

(** The values the decoder reaches inside a wire value: the value, the
    elements of an array, the fields of a map, and the previous value of a
    server timestamp when the behaviour is [previous]. *)
Inductive visits : ServerTimestampBehavior -> Value -> Value -> Prop :=
| visits_here b v : visits b v v
| visits_element b l v w :
    In v l -> visits b v w -> visits b (ArrayV (Some l)) w
| visits_field b l k v w :
    In (k, v) l -> visits b v w -> visits b (MapV (Some l)) w
| visits_previous t p w :
    visits previous p w -> visits previous (ServerTimestampV t (Some p)) w.

(** A value outside the wire contract: no recognised tag, or a reference
    whose resource name fails the structural validation. *)
Definition outsideContract (w : Value) : Prop :=
  typeOrder w = None
  \/ exists name, w = RefV name
                  /\ isValidResourceName (fromString name) = false.

(** Some value the decoder reaches is outside the contract. *)
Definition reachesOutside (b : ServerTimestampBehavior) (v : Value) : Prop :=
  exists w, visits b v w /\ outsideContract w.

(** A computation that leaves the log it starts on in place and appends
    its own diagnostics. *)
Definition framed {A} (m : M A) : Prop :=
  forall log, m log = (fst (m []), (log ++ snd (m []))%list).

(** The scalar variants: null, boolean, number, timestamp, string, blob
    and geo point. *)
Definition isScalar (value : Value) : bool :=
  match typeOrder value with
  | Some NullValue | Some BooleanValue | Some NumberValue
  | Some TimestampValue | Some StringValue | Some BlobValue
  | Some GeoPointValue => true
  | _ => false
  end.

(** The property names of a map, in order. *)
Definition keys {A} (l : list (string * A)) : list string := map fst l.

(** A converted field: the same name, the converted value. *)
Definition field_converted (b : ServerTimestampBehavior)
  (kv : string * Value) (kh : string * HostValue) : Prop :=
  fst kv = fst kh /\ value_of (snd kv) b = Ok (snd kh).

(** *** What a call looks at

    Read off the recursion of [convertValue]: the value a chain of
    pending server timestamps ends in, whether a value holds a server
    timestamp inside its arrays and maps, and the diagnostics of the
    references a call reaches, in the order it reaches them. *)

(** The value [previous] resolves a server timestamp to: the previous
    value of the previous value, and so on, until a value that is not a
    server timestamp; nothing when the chain ends without one. *)
Fixpoint innermost (value : Value) : option Value :=
  match value with
  | ServerTimestampV _ (Some p) => innermost p
  | ServerTimestampV _ None => None
  | _ => Some value
  end.

(** No server timestamp among the value, the elements of its arrays and
    the fields of its maps. *)
Fixpoint pendingFree (value : Value) : bool :=
  match value with
  | ServerTimestampV _ _ => false
  | ArrayV (Some l) => forallb pendingFree l
  | MapV (Some l) => forallb (fun kv => pendingFree (snd kv)) l
  | _ => true
  end.

(** The database identity [convertReference] reads from a resource name
    and the key it builds. *)
Definition foundDatabaseId (name : string) : DatabaseId :=
  mkDatabaseId (get 1 (fromString name)) (get 3 (fromString name)).

Definition keyOf (name : string) : DocumentKey :=
  mkDocumentKey (popFirst 5 (fromString name)).

(** A reference into the decoder's own database. *)
Definition isLocal (name : string) : bool :=
  DatabaseId_isEqual (foundDatabaseId name) (databaseId this).

(** The diagnostics of the references reached in a value, in the order
    of the traversal. *)
Fixpoint diagnostics (value : Value) (b : ServerTimestampBehavior)
  : list string :=
  match value with
  | RefV name =>
      if isLocal name then []
      else [foreignReferenceMessage (keyOf name) (foundDatabaseId name)
              (databaseId this)]
  | ServerTimestampV _ (Some p) =>
      match b with
      | previous => diagnostics p b
      | _ => []
      end
  | ArrayV (Some l) => flat_map (fun v => diagnostics v b) l
  | MapV (Some l) => flat_map (fun kv => diagnostics (snd kv) b) l
  | _ => []
  end.

(** A conversion that returns a value. *)
Definition converts (b : ServerTimestampBehavior) (value : Value) : Prop :=
  exists h, value_of value b = Ok h.


(** [o[key]]: the value of the property of that name, if there is one. *)
Fixpoint obj_get (key : string) (o : DocumentData) : option HostValue :=
  match o with
  | [] => None
  | (k, x) :: rest => if String.eqb k key then Some x else obj_get key rest
  end.

End UserDataWriter.

Arguments Ok {host A} a.
Arguments Thrown {host A} e.

End Writer.

(** ** The lite [FieldValue] facade and its sentinels *)

(** What the sentinel code leaves abstract: the raw elements handed to
    [arrayUnion] and [arrayRemove] ([unknown] in the source), the host
    number, the parse context and the transform it resolves to.  Deep
    equality of raw elements and of numbers is decidable. *)
Class Payloads : Type := {
  JsValue : Type;
  number : Type;
  ParseContext : Type;
  FieldTransform : Type;
  JsValue_eq_dec : forall x y : JsValue, {x = y} + {x <> y};
  number_eq_dec : forall x y : number, {x = y} + {x <> y}
}.

Module Sentinel.

Section FieldValue.

Context {payloads : Payloads}.

(** *** Errors and object allocation *)

Inductive Code : Type :=
| INVALID_ARGUMENT.

Record FirestoreError : Type := mkFirestoreError {
  code : Code;
  functionName : string
}.

Inductive Res (A : Type) : Type :=
| Ok (a : A)
| Thrown (e : FirestoreError).
Arguments Ok {A} a.
Arguments Thrown {A} e.

(** The identity of an object is the value of the allocation counter at
    its [new]. *)
Definition ObjectId : Type := nat.

Definition Alloc (A : Type) : Type := ObjectId -> Res A * ObjectId.

Definition ret {A} (a : A) : Alloc A := fun next => (Ok a, next).

Definition bind {A B} (m : Alloc A) (k : A -> Alloc B) : Alloc B :=
  fun next =>
    match m next with
    | (Ok a, next') => k a next'
    | (Thrown e, next') => (Thrown e, next')
    end.

Definition throw {A} (e : FirestoreError) : Alloc A :=
  fun next => (Thrown e, next).

Definition fresh : Alloc ObjectId := fun next => (Ok next, S next).

Notation "x <- m ;; k" := (bind m (fun x => k))
  (at level 61, m at next level, right associativity).

(** *** The interface [_SerializableFieldValue]

    [T] is the class of the receiver, [O] the values [isEqual] may be
    handed. *)
Class SerializableFieldValue (T O : Type) : Type := {
  _methodName : T -> string;
  _toFieldTransform : T -> ParseContext -> Res (option FieldTransform);
  isEqual : T -> O -> bool
}.

(** *** The delegate wrapper *)

Record FieldValueDelegate (T : Type) : Type := mkFieldValueDelegate {
  delegate_id : ObjectId;
  _delegate : T;
  delegate_methodName : string
}.
Arguments mkFieldValueDelegate {T} _ _ _.
Arguments delegate_id {T} _.
Arguments _delegate {T} _.
Arguments delegate_methodName {T} _.

(** What [isEqual] of the wrapper may receive: an instance of
    [FieldValueDelegate], or anything else. *)
Inductive FieldValue (T : Type) : Type :=
| IsDelegate (d : FieldValueDelegate T)
| NotDelegate (x : JsValue).
Arguments IsDelegate {T} d.
Arguments NotDelegate {T} x.

(** [new FieldValueDelegate(_delegate)] *)
Definition new_FieldValueDelegate {T} `{SerializableFieldValue T T}
  (d : T) : Alloc (FieldValueDelegate T) :=
  id <- fresh ;;
  ret (mkFieldValueDelegate id d (_methodName d)).

#[export] Instance FieldValueDelegate_serializable {T}
  `{SerializableFieldValue T T}
  : SerializableFieldValue (FieldValueDelegate T) (FieldValue T) := {
  _methodName := fun this => delegate_methodName this;
  _toFieldTransform := fun this context =>
    _toFieldTransform (_delegate this) context;
  isEqual := fun this other =>
    match other with
    | IsDelegate o => isEqual (_delegate this) (_delegate o)
    | NotDelegate _ => false
    end
}.

(** *** The five implementations *)

Inductive FieldValueImpl : Type :=
| DeleteFieldValueImpl (methodName : string)
| ServerTimestampFieldValueImpl (methodName : string)
| ArrayUnionFieldValueImpl (methodName : string) (elements : list JsValue)
| ArrayRemoveFieldValueImpl (methodName : string) (elements : list JsValue)
| NumericIncrementFieldValueImpl (methodName : string) (operand : number).

Record ImplObject : Type := mkImplObject {
  impl_id : ObjectId;
  impl : FieldValueImpl
}.

Definition new_impl (i : FieldValueImpl) : Alloc ImplObject :=
  id <- fresh ;;
  ret (mkImplObject id i).

Definition impl_methodName (o : ImplObject) : string :=
  match impl o with
  | DeleteFieldValueImpl m
  | ServerTimestampFieldValueImpl m
  | ArrayUnionFieldValueImpl m _
  | ArrayRemoveFieldValueImpl m _
  | NumericIncrementFieldValueImpl m _ => m
  end.

Definition elements_eqb (xs ys : list JsValue) : bool :=
  if list_eq_dec JsValue_eq_dec xs ys then true else false.

Definition number_eqb (n m : number) : bool :=
  if number_eq_dec n m then true else false.

(** Modelled from the spec: [isEqual] of the implementations of
    [src/api/field_value] (not under src/): the same variant with deeply
    equal payloads, whatever the identities and the method names. *)
Definition impl_isEqual (a b : ImplObject) : bool :=
  match impl a, impl b with
  | DeleteFieldValueImpl _, DeleteFieldValueImpl _ => true
  | ServerTimestampFieldValueImpl _, ServerTimestampFieldValueImpl _ => true
  | ArrayUnionFieldValueImpl _ xs, ArrayUnionFieldValueImpl _ ys =>
      elements_eqb xs ys
  | ArrayRemoveFieldValueImpl _ xs, ArrayRemoveFieldValueImpl _ ys =>
      elements_eqb xs ys
  | NumericIncrementFieldValueImpl _ n, NumericIncrementFieldValueImpl _ m =>
      number_eqb n m
  | _, _ => false
  end.

(** How an implementation resolves against a parse context is defined in
    [src/api/field_value] and [src/api/user_data_reader]; the facade only
    forwards to it. *)
Class Resolver : Type := {
  resolve : FieldValueImpl -> ParseContext -> Res (option FieldTransform)
}.

Context {resolver : Resolver}.

#[export] Instance ImplObject_serializable
  : SerializableFieldValue ImplObject ImplObject := {
  _methodName := impl_methodName;
  _toFieldTransform := fun this context => resolve (impl this) context;
  isEqual := impl_isEqual
}.

(** *** The factories *)

(** Modelled from the spec: [validateAtLeastNumberOfArgs] of
    [util/input_validation] (not under src/): fewer arguments than the
    minimum is an invalid-argument usage error. *)
Definition validateAtLeastNumberOfArgs {A} (functionName : string)
  (args : list A) (minNumberOfArgs : nat) : Alloc unit :=
  if Nat.ltb (List.length args) minNumberOfArgs
  then throw (mkFirestoreError INVALID_ARGUMENT functionName)
  else ret tt.

Definition deleteField : Alloc (FieldValueDelegate ImplObject) :=
  d <- new_impl (DeleteFieldValueImpl "deleteField") ;;
  new_FieldValueDelegate d.

Definition serverTimestamp : Alloc (FieldValueDelegate ImplObject) :=
  d <- new_impl (ServerTimestampFieldValueImpl "serverTimestamp") ;;
  new_FieldValueDelegate d.

Definition arrayUnion (elements : list JsValue)
  : Alloc (FieldValueDelegate ImplObject) :=
  _ <- validateAtLeastNumberOfArgs "arrayUnion()" elements 1 ;;
  d <- new_impl (ArrayUnionFieldValueImpl "arrayUnion" elements) ;;
  new_FieldValueDelegate d.

Definition arrayRemove (elements : list JsValue)
  : Alloc (FieldValueDelegate ImplObject) :=
  _ <- validateAtLeastNumberOfArgs "arrayRemove()" elements 1 ;;
  d <- new_impl (ArrayRemoveFieldValueImpl "arrayRemove" elements) ;;
  new_FieldValueDelegate d.

Definition increment (n : number) : Alloc (FieldValueDelegate ImplObject) :=
  d <- new_impl (NumericIncrementFieldValueImpl "increment" n) ;;
  new_FieldValueDelegate d.

(** *** The sentinel of the specification

    Following the spec's words: a closed set of variants, each with its
    payload and nothing else. *)
Inductive TransformSentinel : Type :=
| Delete
| ServerTimestamp
| ArrayUnion (elements : list JsValue)
| ArrayRemove (elements : list JsValue)
| Increment (operand : number).

Definition sentinel_of (d : FieldValueDelegate ImplObject)
  : TransformSentinel :=
  match impl (_delegate d) with
  | DeleteFieldValueImpl _ => Delete
  | ServerTimestampFieldValueImpl _ => ServerTimestamp
  | ArrayUnionFieldValueImpl _ xs => ArrayUnion xs
  | ArrayRemoveFieldValueImpl _ xs => ArrayRemove xs
  | NumericIncrementFieldValueImpl _ n => Increment n
  end.

(** [a === b] on two wrappers: the same object. *)
Definition same_object (a b : FieldValueDelegate ImplObject) : bool :=
  Nat.eqb (delegate_id a) (delegate_id b).

End FieldValue.

Arguments Ok {A} a.
Arguments Thrown {A} e.
Arguments mkFieldValueDelegate {T} _ _ _.
Arguments delegate_id {T} _.
Arguments _delegate {T} _.
Arguments delegate_methodName {T} _.
Arguments IsDelegate {payloads T} d.
Arguments NotDelegate {payloads T} x.

End Sentinel.

(** ** A concrete platform

    Numbers are the integers and NaN, the wire timestamp is a pair of
    seconds and nanoseconds, bytes are strings, a resource name is split
    at its slashes and is valid when it starts with
    [projects/_/databases/_/documents]. *)
Module Platform.

Definition jsnum : Type := option Z.

Definition NaN : jsnum := None.

Definition jsnum_truthy (n : jsnum) : bool :=
  match n with
  | Some z => negb (Z.eqb z 0)
  | None => false
  end.

Definition is_digit (c : ascii) : bool :=
  let n := nat_of_ascii c in Nat.leb 48 n && Nat.leb n 57.

Fixpoint parse_digits (s : string) (acc : Z) : jsnum :=
  match s with
  | EmptyString => Some acc
  | String c rest =>
      if is_digit c
      then parse_digits rest (10 * acc + Z.of_nat (nat_of_ascii c - 48))
      else NaN
  end.

(** [Number(s)] on decimal integer literals; the empty string is zero. *)
Definition jsNumber (s : string) : jsnum :=
  match s with
  | String "-" EmptyString => NaN
  | String "-" rest => option_map Z.opp (parse_digits rest 0)
  | _ => parse_digits s 0
  end.

(** [s.split('/')] *)
Fixpoint split_slash (s : string) (segment : string) : list string :=
  match s with
  | EmptyString => [segment]
  | String c rest =>
      if Ascii.eqb c "/"
      then segment :: split_slash rest EmptyString
      else split_slash rest (segment ++ String c EmptyString)
  end.

Definition segments (name : string) : list string :=
  split_slash name EmptyString.

Definition validName (p : list string) : bool :=
  match p with
  | a :: _ :: b :: _ :: c :: _ =>
      String.eqb a "projects" && String.eqb b "databases"
      && String.eqb c "documents"
  | _ => false
  end.

#[export] Instance host : Host := {
  num := jsnum;
  num_zero := Some 0%Z;
  num_truthy := jsnum_truthy;
  Number := jsNumber;
  ProtoTimestamp := Z * Z;
  ProtoBytes := string;
  ByteString := string;
  Bytes := string;
  Reference := list string;
  normalizeTimestamp := fun t => (Some (fst t), Some (snd t));
  normalizeByteString := fun b => b;
  fromString := segments;
  isValidResourceName := validName
}.

(** A decoder for database [(P, D)] and one for [(P, D2)]; a reference
    is its key's path. *)
Definition writer (project db : string) : Writer.UserDataWriter :=
  Writer.mkUserDataWriter
    (Writer.mkDatabaseId (Some project) (Some db))
    (fun key => Writer.path key)
    (fun bytes => bytes).

Definition localWriter : Writer.UserDataWriter := writer "P" "D".
Definition otherWriter : Writer.UserDataWriter := writer "P" "D2".

Definition docName : string := "projects/P/databases/D/documents/coll/doc".

Definition stamp (p : option Writer.Value) : Writer.Value :=
  Writer.ServerTimestampV (12%Z, 500%Z) p.

(** A map of two pending server timestamps, the second of which
    replaces the string ["x"], and an array holding that map. *)
Definition pendingFields : list (string * Writer.Value) :=
  [("a", stamp None); ("b", stamp (Some (Writer.StringV "x")))].

Definition pendingArray : Writer.Value :=
  Writer.ArrayV (Some [Writer.MapV (Some pendingFields)]).

(** A server timestamp pending over a server timestamp pending over the
    string ["x"]. *)
Definition chain : Writer.Value :=
  stamp (Some (stamp (Some (Writer.StringV "x")))).

(** An array with a reference of database [(P, D)] at the top and one
    more inside a map. *)
Definition referenceArray : Writer.Value :=
  Writer.ArrayV
    (Some [Writer.RefV docName;
           Writer.MapV (Some [("r", Writer.RefV docName)])]).

(** An array whose second element has no recognised tag and whose third
    is a reference with a bad name. *)
Definition brokenArray : Writer.Value :=
  Writer.ArrayV
    (Some ([Writer.RefV docName]
           ++ Writer.UnsetV :: [Writer.RefV "x/y"])%list).

(** Numeric fields: the numbers 0, 7 and 42 and the text ["42"]. *)
Definition zero : Writer.NumRep := Writer.RepNumber (Some 0%Z).
Definition seven : Writer.NumRep := Writer.RepNumber (Some 7%Z).

(** The number zero in the integer field next to seven in the double
    field. *)
Definition zeroAndSeven : Writer.Value :=
  Writer.NumberV (Some zero) (Some seven).

(** Raw elements are strings, numbers are integers, and an
    implementation resolves to its method name. *)
#[export] Instance payloads : Payloads := {
  JsValue := string;
  number := Z;
  ParseContext := unit;
  FieldTransform := string;
  JsValue_eq_dec := string_dec;
  number_eq_dec := Z.eq_dec
}.

#[export] Instance resolver : Sentinel.Resolver := {
  resolve := fun i _ =>
    Sentinel.Ok (Some (Sentinel.impl_methodName (Sentinel.mkImplObject 0 i)))
}.

End Platform.

(** * Properties of the decoder *)
Module WriterFacts.

Import Writer.

Section Facts.

Context {host : Host}.

(** ** Induction on wire values, through arrays, maps and previous values *)
Lemma Value_nested_ind (P : Value -> Prop) :
  P NullV ->
  (forall b, P (BooleanV b)) ->
  (forall i d, P (NumberV i d)) ->
  (forall t, P (TimestampV t)) ->
  (forall t, P (ServerTimestampV t None)) ->
  (forall t p, P p -> P (ServerTimestampV t (Some p))) ->
  (forall s, P (StringV s)) ->
  (forall b, P (BlobV b)) ->
  (forall n, P (RefV n)) ->
  (forall g, P (GeoPointV g)) ->
  P (ArrayV None) ->
  (forall l, Forall P l -> P (ArrayV (Some l))) ->
  P (MapV None) ->
  (forall l, Forall (fun kv => P (snd kv)) l -> P (MapV (Some l))) ->
  P UnsetV ->
  forall v, P v.
Proof.
  intros Hnull Hbool Hnum Hts Hst0 Hst1 Hstr Hblob Href Hgeo
         Harr0 Harr1 Hmap0 Hmap1 Hunset.
  fix IH 1.
  intros [ | b | i d | t | t [p | ] | s | b | n | g | [l | ] | [l | ] | ];
    try solve [clear IH; auto].
  - apply Hst1, IH.
  - apply Harr1.
    induction l as [ | v l IHl]; constructor; [apply IH | exact IHl].
  - apply Hmap1.
    induction l as [ | [k v] l IHl]; constructor; [apply IH | exact IHl].
Qed.

(** ** The log is only ever appended to *)

Lemma framed_ret {A} (a : A) : framed (ret a).
Proof. intro log. unfold ret. simpl. now rewrite app_nil_r. Qed.

Lemma framed_fail {A} (e : Failure) : framed (@fail _ A e).
Proof. intro log. unfold fail. simpl. now rewrite app_nil_r. Qed.

Lemma framed_logError msg : framed (logError msg).
Proof. intro log. reflexivity. Qed.

Lemma framed_bind {A B} (m : M A) (k : A -> M B) :
  framed m -> (forall a, framed (k a)) -> framed (bind m k).
Proof.
  intros Hm Hk log. unfold bind.
  rewrite (Hm log).
  destruct (m []) as [[a | e] l0]; simpl.
  - rewrite (Hk a (log ++ l0)%list), (Hk a l0).
    simpl. now rewrite app_assoc.
  - reflexivity.
Qed.

Lemma framed_mapM {A B} (f : A -> M B) (l : list A) :
  Forall (fun a => framed (f a)) l -> framed (mapM f l).
Proof.
  induction 1 as [ | a l Ha _ IH]; simpl.
  - apply framed_ret.
  - apply framed_bind; [exact Ha | intro b].
    apply framed_bind; [exact IH | intro bs; apply framed_ret].
Qed.

Lemma framed_forEach {A S} (fn : string -> A -> S -> M S)
  (l : list (string * A)) :
  Forall (fun kv => forall acc, framed (fn (fst kv) (snd kv) acc)) l ->
  forall acc, framed (forEach fn l acc).
Proof.
  induction 1 as [ | [k v] l Hkv _ IH]; intro acc; simpl.
  - apply framed_ret.
  - apply framed_bind; [apply Hkv | intro acc'; apply IH].
Qed.

Variable this : UserDataWriter.

Lemma framed_convertReference name : framed (convertReference this name).
Proof.
  unfold convertReference.
  apply framed_bind.
  - unfold hardAssert.
    destruct (isValidResourceName _); [apply framed_ret | apply framed_fail].
  - intros _. apply framed_bind; [ | intros _; apply framed_ret].
    destruct (negb _); [apply framed_logError | apply framed_ret].
Qed.

Lemma framed_convertValue value b : framed (convertValue this value b).
Proof.
  revert b.
  induction value using Value_nested_ind; intro b0; simpl;
    try apply framed_ret.
  - destruct b0; apply framed_ret.
  - destruct b0; [apply framed_ret | apply IHvalue | apply framed_ret].
  - apply framed_convertReference.
  - apply framed_bind; [ | intro; apply framed_ret].
    apply framed_mapM.
    eapply Forall_impl; [ | eassumption]. intros v Hv. apply Hv.
  - apply framed_bind; [ | intro; apply framed_ret].
    apply framed_forEach.
    eapply Forall_impl; [ | eassumption]. intros [k v] Hv acc. simpl.
    apply framed_bind; [apply Hv | intro; apply framed_ret].
  - apply framed_fail.
Qed.

(** The value returned does not depend on the log the call starts on. *)
Lemma convertValue_result value b log :
  fst (convertValue this value b log) = value_of this value b.
Proof. now rewrite framed_convertValue. Qed.

Lemma convertValue_log value b log :
  snd (convertValue this value b log) = (log ++ emitted this value b)%list.
Proof. now rewrite framed_convertValue. Qed.

(** ** Server timestamps *)

(** C1. On a ServerTimestamp wire value, behaviour [none] yields null,
    [estimate] yields the timestamp decoded from the local write time,
    and [previous] yields the decoding, again with [previous], of the
    previous value when there is one and null when there is none. *)
Theorem convertServerTimestamp_policy (v : Value) :
  typeOrder v = Some ServerTimestampValue ->
  convertValue this v none = ret HNull
  /\ (exists t, getLocalWriteTime v = Some t
                /\ convertValue this v estimate
                   = ret (HTimestamp (convertTimestamp t)))
  /\ convertValue this v previous
     = match getPreviousValue v with
       | Some p => convertValue this p previous
       | None => ret HNull
       end.
Proof.
  destruct v; try discriminate. intros _. simpl.
  split; [reflexivity | split].
  - exists localWriteTime. split; reflexivity.
  - destruct previousValue; reflexivity.
Qed.

(** ** References *)

(** C2. A reference whose resource name passes the validation decodes
    to the reference the factory builds for the key made of the path
    without its first five segments.  When the database identity read
    from segments 1 and 3 is the local one nothing is logged; when it
    differs the call still returns that same reference and the log grows
    by exactly one diagnostic. *)
Theorem convertReference_foreign_database (name : string)
  (b : ServerTimestampBehavior) (log : Log) :
  isValidResourceName (fromString name) = true ->
  let resourcePath := fromString name in
  let key := mkDocumentKey (popFirst 5 resourcePath) in
  let found := mkDatabaseId (get 1 resourcePath) (get 3 resourcePath) in
  convertValue this (RefV name) b log
  = (Ok (HReference (referenceFactory this key)),
     if DatabaseId_isEqual found (databaseId this)
     then log
     else (log ++ [foreignReferenceMessage key found (databaseId this)])%list).
Proof.
  intros Hvalid. cbv zeta. simpl.
  unfold convertReference, bind, hardAssert.
  rewrite Hvalid. simpl.
  destruct (DatabaseId_isEqual _ (databaseId this)); reflexivity.
Qed.

(** ** Numbers *)



(** ** Scalars *)

(** C8. On a scalar wire value the conversion returns a value fixed by
    the wire value and the behaviour alone: whatever the log it starts
    on, it returns that value, throws nothing and leaves the log as it
    was. *)
Theorem scalar_conversion_pure (v : Value) (b : ServerTimestampBehavior) :
  isScalar v = true ->
  exists h, forall log, convertValue this v b log = (Ok h, log).
Proof.
  destruct v; try discriminate; intros _; eexists; intro log; reflexivity.
Qed.

(** ** Absent containers *)

(** C9. An array without [values] converts to the empty array and a map
    without [fields] to the empty object; neither throws or logs. *)
Theorem absent_container_is_empty (b : ServerTimestampBehavior) (log : Log) :
  convertValue this (ArrayV None) b log = (Ok (HArray []), log)
  /\ convertValue this (MapV None) b log = (Ok (HObject []), log).
Proof. split; reflexivity. Qed.

(** ** Which calls throw *)

Lemma framed_fst {A} (m : M A) log : framed m -> fst (m log) = fst (m []).
Proof. intro Hm. now rewrite Hm. Qed.

Lemma throws_framed {A} (m : M A) log :
  framed m -> throws (m log) <-> throws (m []).
Proof. intro Hm. unfold throws. now rewrite (framed_fst m log Hm). Qed.

Lemma not_throws_Ok {A} (a : A) log : ~ throws (Ok a, log).
Proof. intros [e He]. discriminate. Qed.

Lemma throws_Thrown {A} e log : throws (@Thrown _ A e, log).
Proof. now exists e. Qed.

Lemma throws_bind_ret {A B} (m : M A) (g : A -> B) log :
  throws (bind m (fun a => ret (g a)) log) <-> throws (m log).
Proof.
  unfold bind, ret. destruct (m log) as [[a | e] log']; split; intro H;
    try exact H; try (now apply not_throws_Ok in H); apply throws_Thrown.
Qed.

Lemma mapM_throws {A B} (f : A -> M B) (l : list A) :
  Forall (fun a => framed (f a)) l ->
  forall log, throws (mapM f l log) <-> Exists (fun a => throws (f a [])) l.
Proof.
  induction 1 as [ | a l Ha _ IH]; intro log; simpl.
  - split; [intro H; now apply not_throws_Ok in H | intro H; inversion H].
  - rewrite Exists_cons, <- (throws_framed (f a) log Ha).
    unfold bind at 1.
    destruct (f a log) as [[b | e] log'].
    + rewrite throws_bind_ret, IH.
      split; [now right | intros [H | H]; [now apply not_throws_Ok in H | exact H]].
    + split; intros _; [left | ]; apply throws_Thrown.
Qed.

Lemma forEach_throws {A S} (fn : string -> A -> S -> M S)
  (conv : A -> M HostValue) (l : list (string * A)) :
  (forall k v acc log, throws (fn k v acc log) <-> throws (conv v [])) ->
  forall acc log,
    throws (forEach fn l acc log)
    <-> Exists (fun kv => throws (conv (snd kv) [])) l.
Proof.
  intro Hfn. induction l as [ | [k v] l IH]; intros acc log; simpl.
  - split; [intro H; now apply not_throws_Ok in H | intro H; inversion H].
  - rewrite Exists_cons. simpl. rewrite <- (Hfn k v acc log).
    unfold bind at 1.
    destruct (fn k v acc log) as [[acc' | e] log'].
    + rewrite IH.
      split; [now right | intros [H | H]; [now apply not_throws_Ok in H | exact H]].
    + split; intros _; [left | ]; apply throws_Thrown.
Qed.

Lemma convertReference_throws name log :
  throws (convertReference this name log)
  <-> isValidResourceName (fromString name) = false.
Proof.
  unfold convertReference, bind, hardAssert.
  destruct (isValidResourceName (fromString name)); simpl.
  - destruct (DatabaseId_isEqual _ _); simpl;
      (split; [intro H; now apply not_throws_Ok in H | discriminate]).
  - split; [reflexivity | intros _; apply throws_Thrown].
Qed.

Lemma reachesOutside_array b l :
  reachesOutside b (ArrayV (Some l)) <-> Exists (reachesOutside b) l.
Proof.
  split.
  - intros (w & Hv & Hw). inversion Hv; subst.
    + destruct Hw as [Hw | (n & Hw & _)]; discriminate.
    + apply Exists_exists. exists v. split; [assumption | now exists w].
  - intro H. apply Exists_exists in H. destruct H as (v & Hin & w & Hv & Hw).
    exists w. split; [now apply visits_element with v | exact Hw].
Qed.

Lemma reachesOutside_map b l :
  reachesOutside b (MapV (Some l))
  <-> Exists (fun kv => reachesOutside b (snd kv)) l.
Proof.
  split.
  - intros (w & Hv & Hw). inversion Hv; subst.
    + destruct Hw as [Hw | (n & Hw & _)]; discriminate.
    + apply Exists_exists. exists (k, v). split; [assumption | now exists w].
  - intro H. apply Exists_exists in H.
    destruct H as ([k v] & Hin & w & Hv & Hw).
    exists w. split; [now apply visits_field with k v | exact Hw].
Qed.

Lemma reachesOutside_previous t p :
  reachesOutside previous (ServerTimestampV t (Some p))
  <-> reachesOutside previous p.
Proof.
  split.
  - intros (w & Hv & Hw). inversion Hv; subst.
    + destruct Hw as [Hw | (n & Hw & _)]; discriminate.
    + now exists w.
  - intros (w & Hv & Hw). exists w. split; [now constructor | exact Hw].
Qed.

Ltac never_throws :=
  split;
  [ let H := fresh "H" in intro H; apply not_throws_Ok in H; contradiction
  | let w := fresh "w" in
    let Hv := fresh "Hv" in
    let Hw := fresh "Hw" in
    intros (w & Hv & Hw); inversion Hv; subst;
    destruct Hw as [Hw | (? & Hw & _)]; discriminate ].

Lemma throws_iff_reachesOutside v b log :
  throws (convertValue this v b log) <-> reachesOutside b v.
Proof.
  revert b log.
  induction v using Value_nested_ind; intros b0 log; simpl;
    try (unfold ret; never_throws).
  - destruct b0; unfold ret; never_throws.
  - destruct b0; try (unfold ret; never_throws).
    now rewrite IHv, reachesOutside_previous.
  - rewrite convertReference_throws. split.
    + intro Hn. exists (RefV n). split; [constructor | right; now exists n].
    + intros (w & Hv & Hw). inversion Hv; subst.
      destruct Hw as [Hw | (m & Hw & Hm)]; [discriminate | ].
      now inversion Hw; subst.
  - rewrite throws_bind_ret, mapM_throws, reachesOutside_array.
    + rewrite !Exists_exists. split; intros (v & Hin & Hv); exists v;
        (split; [exact Hin | ]); rewrite Forall_forall in H;
        now apply (H v Hin b0 []).
    + apply Forall_forall. intros v _. apply framed_convertValue.
  - rewrite throws_bind_ret, reachesOutside_map.
    rewrite (forEach_throws _ (fun v => convertValue this v b0)).
    + rewrite !Exists_exists. split; intros (kv & Hin & Hv); exists kv;
        (split; [exact Hin | ]); rewrite Forall_forall in H;
        now apply (H kv Hin b0 []).
    + intros k v acc log'. rewrite throws_bind_ret.
      apply throws_framed, framed_convertValue.
  - split.
    + intros _. exists UnsetV. split; [constructor | now left].
    + intros _. apply throws_Thrown.
Qed.

(** C4. A value without a recognised tag aborts in the default branch,
    a reference whose resource name fails the validation aborts in the
    hard assertion, and a call throws exactly when some value the decoder
    reaches is of one of these two kinds; on every other input nothing is
    thrown. *)
Theorem failure_iff_outside_contract (v : Value)
  (b : ServerTimestampBehavior) (log : Log) :
  (typeOrder v = None ->
   convertValue this v b log = (Thrown (InvalidValueType v), log))
  /\ (forall name,
        v = RefV name ->
        isValidResourceName (fromString name) = false ->
        convertValue this v b log
        = (Thrown (ReferenceValueNotValid name), log))
  /\ (throws (convertValue this v b log)
      <-> exists w, visits b v w /\ outsideContract w).
Proof.
  repeat split.
  - destruct v; try discriminate. reflexivity.
  - intros name -> Hvalid. simpl.
    unfold convertReference, bind, hardAssert. now rewrite Hvalid.
  - apply throws_iff_reachesOutside.
  - apply throws_iff_reachesOutside.
Qed.

(** ** Containers *)

Lemma mapM_Ok {A B} (f : A -> M B) (l : list A) :
  Forall (fun a => framed (f a)) l ->
  forall log bs,
    fst (mapM f l log) = Ok bs
    <-> Forall2 (fun a b => fst (f a []) = Ok b) l bs.
Proof.
  induction 1 as [ | a l Ha _ IH]; intros log bs; simpl.
  - split.
    + intro H. inversion H. constructor.
    + intro H. inversion H. reflexivity.
  - unfold bind at 1. rewrite (Ha log).
    destruct (f a []) as [[b | e] la] eqn:Hfa; simpl.
    + unfold bind, ret.
      specialize (IH (log ++ la)%list).
      destruct (mapM f l (log ++ la)%list) as [[bs' | e] l']; simpl in *.
      * split.
        -- intro H. inversion H; subst.
           constructor; [now rewrite Hfa | now apply IH].
        -- intro H. inversion H as [ | ? b' ? bs'' Hb Hbs]; subst.
           rewrite Hfa in Hb. inversion Hb; subst.
           apply IH in Hbs. now inversion Hbs.
      * split; [discriminate | ].
        intro H. inversion H as [ | ? b' ? bs'' Hb Hbs]; subst.
        apply IH in Hbs. discriminate.
    + split; [discriminate | ].
      intro H. inversion H as [ | ? b' ? bs'' Hb Hbs].
      rewrite Hfa in Hb. discriminate.
Qed.

Lemma obj_set_fresh key h (o : DocumentData) :
  ~ In key (keys o) -> obj_set key h o = (o ++ [(key, h)])%list.
Proof.
  induction o as [ | [k x] o IH]; simpl; intro Hfresh; [reflexivity | ].
  destruct (String.eqb_spec k key) as [-> | _].
  - exfalso. apply Hfresh. now left.
  - rewrite IH; [reflexivity | ]. intro Hin. apply Hfresh. now right.
Qed.

Lemma keys_app {A} (l1 l2 : list (string * A)) :
  keys (l1 ++ l2) = (keys l1 ++ keys l2)%list.
Proof. apply map_app. Qed.

Lemma forEach_storeField_Ok b (l : list (string * Value)) :
  NoDup (keys l) ->
  forall acc log r,
    (forall k, In k (keys l) -> ~ In k (keys acc)) ->
    fst (forEach (storeField this b) l acc log) = Ok r
    <-> exists hfs, r = (acc ++ hfs)%list
                    /\ Forall2 (field_converted this b) l hfs.
Proof.
  induction l as [ | [k v] l IH]; intros Hnodup acc log r Hfresh; simpl.
  - split.
    + intro H. inversion H. exists []. split; [now rewrite app_nil_r | constructor].
    + intros (hfs & -> & H). inversion H. now rewrite app_nil_r.
  - simpl in Hnodup. inversion Hnodup as [ | ? ? Hk Hnodup']; subst.
    unfold bind at 1, storeField at 1, bind at 1.
    rewrite (framed_convertValue v b log).
    fold (value_of this v b). fold (emitted this v b).
    destruct (value_of this v b) as [h | e] eqn:Hv; simpl.
    + rewrite obj_set_fresh by (apply Hfresh; now left).
      rewrite (IH Hnodup').
      * split.
        -- intros (hfs & -> & Hall). exists ((k, h) :: hfs). split.
           ++ now rewrite <- app_assoc.
           ++ constructor; [now split | exact Hall].
        -- intros (hfs & -> & Hall).
           inversion Hall as [ | ? [k' h'] ? hfs' [Hkk Hh] Hall']; subst.
           simpl in Hkk, Hh. subst k'.
           rewrite Hv in Hh. inversion Hh; subst h'.
           exists hfs'. split; [now rewrite <- app_assoc | exact Hall'].
      * intros k' Hin. rewrite keys_app, in_app_iff. simpl.
        intros [Hacc | [-> | []]].
        -- apply (Hfresh k'); [now right | exact Hacc].
        -- now apply Hk.
    + split; [discriminate | ].
      intros (hfs & _ & Hall).
      inversion Hall as [ | ? [k' h'] ? hfs' [_ Hh] Hall']; subst.
      simpl in Hh. rewrite Hv in Hh. discriminate.
Qed.

(** C7. An array converts to the array of its converted elements, in
    order, each converted with the behaviour given for the array; a map
    converts to the object of its converted fields, in the order of the
    wire map, each converted with that same behaviour.  As the elements
    and fields are arbitrary wire values, the behaviour reaches every
    nesting depth. *)
Theorem containers_convert_elementwise (b : ServerTimestampBehavior)
  (log : Log) :
  (forall l h,
     fst (convertValue this (ArrayV (Some l)) b log) = Ok h
     <-> exists hs, h = HArray hs
                    /\ Forall2 (fun v x => value_of this v b = Ok x) l hs)
  /\ (forall l h,
        NoDup (keys l) ->
        fst (convertValue this (MapV (Some l)) b log) = Ok h
        <-> exists hfs, h = HObject hfs
                        /\ Forall2 (field_converted this b) l hfs).
Proof.
  split.
  - intros l h. simpl. unfold bind, ret.
    pose proof (mapM_Ok (fun v => convertValue this v b) l) as Hmap.
    assert (Hfr : Forall (fun a => framed (convertValue this a b)) l)
      by (apply Forall_forall; intros; apply framed_convertValue).
    specialize (Hmap Hfr log).
    destruct (mapM _ l log) as [[hs | e] l']; simpl in *.
    + split.
      * intro H. inversion H; subst. exists hs. split; [reflexivity | ].
        now apply Hmap.
      * intros (hs' & -> & Hall). apply Hmap in Hall. now inversion Hall.
    + split; [discriminate | ].
      intros (hs' & _ & Hall). apply Hmap in Hall. discriminate.
  - intros l h Hnodup. simpl. unfold bind at 1, ret.
    pose proof (forEach_storeField_Ok b l Hnodup [] log) as Hfields.
    change (forEach _ l [] log) with (forEach (storeField this b) l [] log).
    destruct (forEach (storeField this b) l [] log) as [[r | e] l'];
      simpl in *.
    + split.
      * intro H. inversion H; subst. exists r. split; [reflexivity | ].
        destruct (proj1 (Hfields r (fun _ _ F => F)) eq_refl)
          as (hfs & -> & Hall).
        exact Hall.
      * intros (hfs & -> & Hall). f_equal. f_equal.
        assert (Hr : Ok r = Ok ([] ++ hfs)%list)
          by (apply Hfields; [intros _ _ F; exact F | now exists hfs]).
        now inversion Hr.
    + split; [discriminate | ].
      intros (hfs & _ & Hall).
      assert (Hr : @Thrown _ DocumentData e = Ok ([] ++ hfs)%list)
        by (apply Hfields; [intros _ _ F; exact F | now exists hfs]).
      discriminate.
Qed.

(** [convertValue] runs the methods of the class on containers. *)
Lemma convertValue_array values b :
  convertValue this (ArrayV values) b = convertArray this values b.
Proof. destruct values; reflexivity. Qed.

Lemma convertValue_map fields b :
  convertValue this (MapV fields) b = convertObject this fields b.
Proof. destruct fields; reflexivity. Qed.

End Facts.

End WriterFacts.

(** * Properties of the sentinels *)
Module SentinelFacts.

Import Sentinel.

Section Facts.

Context {payloads : Payloads} {resolver : Resolver}.

Lemma elements_eqb_eq xs ys : elements_eqb xs ys = true <-> xs = ys.
Proof.
  unfold elements_eqb.
  destruct (list_eq_dec JsValue_eq_dec xs ys); split;
    congruence || discriminate.
Qed.

Lemma number_eqb_eq n m : number_eqb n m = true <-> n = m.
Proof.
  unfold number_eqb.
  destruct (number_eq_dec n m); split; congruence || discriminate.
Qed.

Lemma impl_isEqual_structural (a b : FieldValueDelegate ImplObject) :
  impl_isEqual (_delegate a) (_delegate b) = true
  <-> sentinel_of a = sentinel_of b.
Proof.
  unfold impl_isEqual, sentinel_of.
  destruct (impl (_delegate a)), (impl (_delegate b));
    try (split; [discriminate | discriminate]);
    try (split; reflexivity).
  - rewrite elements_eqb_eq. split; congruence.
  - rewrite elements_eqb_eq. split; congruence.
  - rewrite number_eqb_eq. split; congruence.
Qed.

(** ** Construction *)

(** C5. With no element [arrayUnion] and [arrayRemove] throw an
    invalid-argument error and allocate nothing; with at least one
    element each returns a fresh delegate that wraps the matching
    implementation, which carries the elements as they were given. *)
Theorem array_sentinels_need_an_element (next : ObjectId) :
  arrayUnion [] next
  = (Thrown (mkFirestoreError INVALID_ARGUMENT "arrayUnion()"), next)
  /\ arrayRemove [] next
     = (Thrown (mkFirestoreError INVALID_ARGUMENT "arrayRemove()"), next)
  /\ (forall e es,
        exists d,
          arrayUnion (e :: es) next = (Ok d, S (S next))
          /\ impl (_delegate d)
             = ArrayUnionFieldValueImpl "arrayUnion" (e :: es)
          /\ _methodName d = "arrayUnion"
          /\ sentinel_of d = ArrayUnion (e :: es))
  /\ (forall e es,
        exists d,
          arrayRemove (e :: es) next = (Ok d, S (S next))
          /\ impl (_delegate d)
             = ArrayRemoveFieldValueImpl "arrayRemove" (e :: es)
          /\ _methodName d = "arrayRemove"
          /\ sentinel_of d = ArrayRemove (e :: es)).
Proof.
  repeat split; intros; eexists; repeat split.
Qed.

(** ** Equality *)

(** C6. Two sentinels are equal exactly when they are the same variant
    with equal payloads, whatever their identities; a sentinel never
    equals a value that is not a sentinel.  Two [increment(n)] built
    apart are equal, [increment(n)] and [increment(m)] with different
    operands are not, and [increment(n)] is not equal to
    [deleteField()]. *)
Theorem sentinel_equality_structural :
  (forall a b : FieldValueDelegate ImplObject,
     isEqual a (IsDelegate b) = true <-> sentinel_of a = sentinel_of b)
  /\ (forall (a : FieldValueDelegate ImplObject) x,
        isEqual a (NotDelegate x) = false)
  /\ (forall n m next1 next2 a b,
        fst (increment n next1) = Ok a ->
        fst (increment m next2) = Ok b ->
        (isEqual a (IsDelegate b) = true <-> n = m)
        /\ (next1 <> next2 -> same_object a b = false))
  /\ (forall n next1 next2 a b,
        fst (increment n next1) = Ok a ->
        fst (deleteField next2) = Ok b ->
        isEqual a (IsDelegate b) = false).
Proof.
  split; [ | split; [ | split]].
  - intros a b. simpl. apply impl_isEqual_structural.
  - reflexivity.
  - intros n m next1 next2 a b Ha Hb.
    inversion Ha; subst. inversion Hb; subst. simpl. split.
    + unfold impl_isEqual. simpl. apply number_eqb_eq.
    + unfold same_object. simpl. intro Hne.
      apply Nat.eqb_neq. lia.
  - intros n next1 next2 a b Ha Hb.
    inversion Ha; subst. inversion Hb; subst. reflexivity.
Qed.

(** ** Delegation *)

(** C10. The wrapper built around an implementation resolves a parse
    context to what the implementation resolves it to and has the
    implementation's method name. *)
Theorem delegate_forwards {T : Type} `{SerializableFieldValue T T}
  (d : T) (c : ParseContext) (next : ObjectId) :
  exists w,
    new_FieldValueDelegate d next = (Ok w, S next)
    /\ _delegate w = d
    /\ _toFieldTransform w c = _toFieldTransform d c
    /\ _methodName w = _methodName d.
Proof.
  eexists. repeat split.
Qed.

End Facts.

End SentinelFacts.

(** * The properties on the concrete platform *)
Module Examples.

Import Writer Sentinel Platform WriterFacts SentinelFacts.

Lemma convertServerTimestamp_policy_witness :
  let v := stamp (Some (StringV "x")) in
  typeOrder v = Some ServerTimestampValue
  /\ convertValue localWriter v none = Writer.ret HNull
  /\ (exists t,
        getLocalWriteTime v = Some t
        /\ convertValue localWriter v estimate
           = Writer.ret (HTimestamp (convertTimestamp t)))
  /\ convertValue localWriter v previous
     = convertValue localWriter (StringV "x") previous.
Proof.
  split; [reflexivity | ].
  exact (convertServerTimestamp_policy localWriter
           (stamp (Some (StringV "x"))) eq_refl).
Defined.

Lemma convertReference_foreign_database_witness :
  isValidResourceName (fromString docName) = true
  /\ convertValue localWriter (RefV docName) none []
     = (Writer.Ok (HReference ["coll"; "doc"]), [])
  /\ exists msg,
       convertValue otherWriter (RefV docName) none []
       = (Writer.Ok (HReference ["coll"; "doc"]), [msg]).
Proof.
  split; [reflexivity | split].
  - exact (convertReference_foreign_database localWriter docName none []
             eq_refl).
  - eexists.
    exact (convertReference_foreign_database otherWriter docName none []
             eq_refl).
Defined.


Lemma failure_iff_outside_contract_witness :
  convertValue localWriter UnsetV none []
  = (Writer.Thrown (InvalidValueType UnsetV), [])
  /\ convertValue localWriter (RefV "x/y") none []
     = (Writer.Thrown (ReferenceValueNotValid "x/y"), [])
  /\ throws (convertValue localWriter
               (ArrayV (Some [NullV; stamp (Some UnsetV)])) previous [])
  /\ ~ throws (convertValue localWriter
                 (ArrayV (Some [NullV; stamp (Some UnsetV)])) none []).
Proof.
  split; [ | split; [ | split]].
  - exact (proj1 (failure_iff_outside_contract localWriter UnsetV none [])
             eq_refl).
  - exact (proj1 (proj2 (failure_iff_outside_contract localWriter
                           (RefV "x/y") none []))
             "x/y" eq_refl eq_refl).
  - apply (proj2 (proj2 (failure_iff_outside_contract localWriter
                           (ArrayV (Some [NullV; stamp (Some UnsetV)]))
                           previous []))).
    exists UnsetV. split; [ | now left].
    apply visits_element with (stamp (Some UnsetV)); [right; now left | ].
    apply visits_previous, visits_here.
  - intro H.
    apply (proj2 (proj2 (failure_iff_outside_contract localWriter
                           (ArrayV (Some [NullV; stamp (Some UnsetV)]))
                           none []))) in H.
    destruct H as (w & Hv & Hw).
    inversion Hv as [ | ? ? v ? Hin Hv' | | ]; subst.
    + destruct Hw as [Hw | (n & Hw & _)]; discriminate.
    + destruct Hin as [<- | [<- | []]]; inversion Hv'; subst;
        destruct Hw as [Hw | (n & Hw & _)]; discriminate.
Defined.

Lemma sentinel_equality_structural_witness :
  exists a b c d,
    fst (increment 5%Z 0) = Sentinel.Ok a
    /\ fst (increment 5%Z 7) = Sentinel.Ok b
    /\ fst (increment 6%Z 7) = Sentinel.Ok c
    /\ fst (deleteField 7) = Sentinel.Ok d
    /\ same_object a b = false
    /\ isEqual a (IsDelegate b) = true
    /\ isEqual a (IsDelegate c) = false
    /\ isEqual a (IsDelegate d) = false
    /\ isEqual a (NotDelegate "increment") = false.
Proof.
  do 4 eexists.
  do 4 (split; [reflexivity | ]).
  destruct sentinel_equality_structural as (_ & Hother & Hincr & Hdel).
  split; [ | split; [ | split; [ | split]]].
  - apply (Hincr 5%Z 5%Z 0 7 _ _ eq_refl eq_refl). discriminate.
  - now apply (Hincr 5%Z 5%Z 0 7 _ _ eq_refl eq_refl).
  - match goal with |- ?x = false => destruct x eqn:Heq end;
      [ | reflexivity].
    apply (Hincr 5%Z 6%Z 0 7 _ _ eq_refl eq_refl) in Heq. discriminate.
  - exact (Hdel 5%Z 0 7 _ _ eq_refl eq_refl).
  - apply Hother.
Defined.

Lemma containers_convert_elementwise_witness :
  NoDup (keys pendingFields)
  /\ value_of localWriter (MapV (Some pendingFields)) previous
     = Writer.Ok (HObject [("a", HNull); ("b", HString "x")])
  /\ value_of localWriter pendingArray previous
     = Writer.Ok (HArray [HObject [("a", HNull); ("b", HString "x")]]).
Proof.
  assert (Hnodup : NoDup (keys pendingFields)).
  { repeat constructor; simpl; intuition discriminate. }
  destruct (containers_convert_elementwise localWriter previous [])
    as [Harray Hmap].
  split; [exact Hnodup | split].
  - apply (Hmap pendingFields _ Hnodup).
    eexists. split; [reflexivity | ]. repeat constructor.
  - apply Harray.
    eexists. split; [reflexivity | ]. repeat constructor.
Defined.

Lemma scalar_conversion_pure_witness :
  isScalar zeroAndSeven = true
  /\ exists h,
       forall log,
         convertValue otherWriter zeroAndSeven estimate log
         = (Writer.Ok h, log).
Proof.
  split; [reflexivity | ].
  exact (scalar_conversion_pure otherWriter zeroAndSeven estimate eq_refl).
Defined.

End Examples.

(** * Further properties of the decoder *)
Module WriterExtras.

Import Writer WriterFacts.

Section Facts.

Context {host : Host}.

(** ** Lists of conversions *)

Lemma mapM_ext_in {A B} (f g : A -> M B) (l : list A) :
  (forall a, In a l -> forall log, f a log = g a log) ->
  forall log, mapM f l log = mapM g l log.
Proof.
  induction l as [ | a l IH]; intros Hfg log; simpl; [reflexivity | ].
  unfold bind at 1 3. rewrite (Hfg a (or_introl eq_refl) log).
  destruct (g a log) as [[b | e] log']; [ | reflexivity].
  unfold bind. rewrite IH; [reflexivity | ].
  intros x Hx. apply Hfg. now right.
Qed.

Lemma forEach_ext_in {A S} (f g : string -> A -> S -> M S)
  (l : list (string * A)) :
  (forall k v, In (k, v) l -> forall acc log, f k v acc log = g k v acc log) ->
  forall acc log, forEach f l acc log = forEach g l acc log.
Proof.
  induction l as [ | [k v] l IH]; intros Hfg acc log; simpl; [reflexivity | ].
  unfold bind. rewrite (Hfg k v (or_introl eq_refl) acc log).
  destruct (g k v acc log) as [[acc' | e] log']; [ | reflexivity].
  apply IH. intros k' v' Hin. apply Hfg. now right.
Qed.

Lemma mapM_fst_ext {A B} (f g : A -> M B) (l : list A) :
  (forall a, In a l -> forall log1 log2, fst (f a log1) = fst (g a log2)) ->
  forall log1 log2, fst (mapM f l log1) = fst (mapM g l log2).
Proof.
  induction l as [ | a l IH]; intros Hfg log1 log2; simpl; [reflexivity | ].
  unfold bind at 1 3.
  pose proof (Hfg a (or_introl eq_refl) log1 log2) as Ha.
  destruct (f a log1) as [[b | e] l1], (g a log2) as [[b' | e'] l2];
    simpl in Ha; try discriminate; [ | simpl; congruence].
  inversion Ha; subst b'. unfold bind, ret.
  assert (IH' : fst (mapM f l l1) = fst (mapM g l l2))
    by (apply IH; intros x Hx; apply Hfg; now right).
  destruct (mapM f l l1) as [[bs | e] l1'], (mapM g l l2) as [[bs' | e'] l2'];
    simpl in IH'; try discriminate; simpl; congruence.
Qed.

Lemma forEach_fst_ext {A S} (f g : string -> A -> S -> M S)
  (l : list (string * A)) :
  (forall k v, In (k, v) l ->
     forall acc log1 log2, fst (f k v acc log1) = fst (g k v acc log2)) ->
  forall acc log1 log2,
    fst (forEach f l acc log1) = fst (forEach g l acc log2).
Proof.
  induction l as [ | [k v] l IH]; intros Hfg acc log1 log2; simpl;
    [reflexivity | ].
  unfold bind.
  pose proof (Hfg k v (or_introl eq_refl) acc log1 log2) as Ha.
  destruct (f k v acc log1) as [[a | e] l1], (g k v acc log2) as [[a' | e'] l2];
    simpl in Ha; try discriminate; [ | simpl; congruence].
  inversion Ha; subst a'.
  apply IH. intros k' v' Hin. apply Hfg. now right.
Qed.

Lemma mapM_quiet {A B} (f : A -> M B) (l : list A) :
  (forall a, In a l -> forall log, snd (f a log) = log) ->
  forall log, snd (mapM f l log) = log.
Proof.
  induction l as [ | a l IH]; intros Hq log; simpl; [reflexivity | ].
  unfold bind at 1.
  pose proof (Hq a (or_introl eq_refl) log) as Ha.
  destruct (f a log) as [[b | e] log']; simpl in Ha; subst log';
    [ | reflexivity].
  unfold bind, ret.
  assert (IH' : snd (mapM f l log) = log)
    by (apply IH; intros x Hx; apply Hq; now right).
  destruct (mapM f l log) as [[bs | e] log']; exact IH'.
Qed.

Lemma forEach_quiet {A S} (f : string -> A -> S -> M S)
  (l : list (string * A)) :
  (forall k v, In (k, v) l -> forall acc log, snd (f k v acc log) = log) ->
  forall acc log, snd (forEach f l acc log) = log.
Proof.
  induction l as [ | [k v] l IH]; intros Hq acc log; simpl; [reflexivity | ].
  unfold bind.
  pose proof (Hq k v (or_introl eq_refl) acc log) as Ha.
  destruct (f k v acc log) as [[a | e] log']; simpl in Ha; subst log';
    [ | reflexivity].
  apply IH. intros k' v' Hin. apply Hq. now right.
Qed.

Lemma mapM_log_Ok {A B} (f : A -> M B) (d : A -> Log) (l : list A) :
  (forall a, In a l ->
     forall log b log', f a log = (Ok b, log') -> log' = (log ++ d a)%list) ->
  forall log bs log',
    mapM f l log = (Ok bs, log') -> log' = (log ++ flat_map d l)%list.
Proof.
  induction l as [ | a l IH]; intros Hd log bs log' Hrun; simpl in *.
  - inversion Hrun. now rewrite app_nil_r.
  - unfold bind at 1 in Hrun.
    destruct (f a log) as [[b | e] l1] eqn:Ha; [ | discriminate].
    unfold bind, ret in Hrun.
    destruct (mapM f l l1) as [[bs' | e] l2] eqn:Hl; [ | discriminate].
    inversion Hrun; subst.
    apply (Hd a (or_introl eq_refl)) in Ha. subst l1.
    rewrite app_assoc.
    apply (IH (fun x Hx => Hd x (or_intror Hx)) _ _ _ Hl).
Qed.

Lemma forEach_log_Ok {A S} (f : string -> A -> S -> M S) (d : A -> Log)
  (l : list (string * A)) :
  (forall k v, In (k, v) l ->
     forall acc log acc' log',
       f k v acc log = (Ok acc', log') -> log' = (log ++ d v)%list) ->
  forall acc log r log',
    forEach f l acc log = (Ok r, log') ->
    log' = (log ++ flat_map (fun kv => d (snd kv)) l)%list.
Proof.
  induction l as [ | [k v] l IH]; intros Hd acc log r log' Hrun; simpl in *.
  - inversion Hrun. now rewrite app_nil_r.
  - unfold bind in Hrun.
    destruct (f k v acc log) as [[acc' | e] l1] eqn:Ha; [ | discriminate].
    apply (Hd k v (or_introl eq_refl)) in Ha. subst l1.
    rewrite app_assoc.
    apply (IH (fun k' v' Hin => Hd k' v' (or_intror Hin)) _ _ _ _ Hrun).
Qed.

Lemma mapM_first_failure {A B} (f : A -> M B) (l1 l2 : list A) (a : A) e :
  Forall (fun x => framed (f x)) l1 -> framed (f a) ->
  Forall (fun x => exists b, fst (f x []) = Ok b) l1 ->
  fst (f a []) = Thrown e ->
  forall log,
    mapM f (l1 ++ a :: l2) log
    = (Thrown e,
       (log ++ flat_map (fun x => snd (f x [])) l1 ++ snd (f a []))%list).
Proof.
  intros Hfr Ha Hok He.
  induction l1 as [ | x l1 IH]; intro log; simpl.
  - unfold bind. rewrite (Ha log), He. reflexivity.
  - inversion Hfr as [ | ? ? Hx Hfr']; subst.
    inversion Hok as [ | ? ? [b Hb] Hok']; subst.
    unfold bind at 1. rewrite (Hx log), Hb.
    unfold bind at 1. rewrite (IH Hfr' Hok').
    now rewrite <- !app_assoc.
Qed.

Variable this : UserDataWriter.

Lemma forEach_first_failure b (l1 l2 : list (string * Value)) k v e :
  Forall (fun kv => converts this b (snd kv)) l1 ->
  value_of this v b = Thrown e ->
  forall acc log,
    forEach (storeField this b) (l1 ++ (k, v) :: l2) acc log
    = (Thrown e,
       (log ++ flat_map (fun kv => emitted this (snd kv) b) l1
            ++ emitted this v b)%list).
Proof.
  intros Hok He.
  induction l1 as [ | [k' x] l1 IH]; intros acc log; simpl.
  - unfold bind, storeField, bind.
    rewrite (framed_convertValue this v b log).
    fold (value_of this v b). now rewrite He.
  - inversion Hok as [ | ? ? [h Hh] Hok']; subst. simpl in Hh.
    unfold bind at 1, storeField at 1, bind at 1.
    rewrite (framed_convertValue this x b log).
    fold (value_of this x b). rewrite Hh. simpl.
    rewrite (IH Hok').
    unfold emitted. now rewrite <- !app_assoc.
Qed.

Lemma fst_bind_ret {A B} (m : M A) (g : A -> B) log :
  fst (bind m (fun a => ret (g a)) log)
  = match fst (m log) with
    | Ok a => Ok (g a)
    | Thrown e => Thrown e
    end.
Proof. unfold bind, ret. now destruct (m log) as [[a | e] log']. Qed.

Lemma snd_bind_ret {A B} (m : M A) (g : A -> B) log :
  snd (bind m (fun a => ret (g a)) log) = snd (m log).
Proof. unfold bind, ret. now destruct (m log) as [[a | e] log']. Qed.

Lemma mapM_Thrown_in {A B} (f : A -> M B) (l : list A) log e :
  fst (mapM f l log) = Thrown e ->
  exists a log0, In a l /\ fst (f a log0) = Thrown e.
Proof.
  revert log. induction l as [ | a l IH]; intros log Hrun; simpl in *.
  - discriminate.
  - unfold bind at 1 in Hrun.
    destruct (f a log) as [[b | e'] l1] eqn:Ha.
    + rewrite fst_bind_ret in Hrun.
      destruct (fst (mapM f l l1)) as [bs | e'] eqn:Hl; [discriminate | ].
      inversion Hrun; subst e'.
      destruct (IH _ Hl) as (x & log0 & Hin & Hx).
      exists x, log0. split; [now right | exact Hx].
    + simpl in Hrun. inversion Hrun; subst e'.
      exists a, log. split; [now left | now rewrite Ha].
Qed.

Lemma forEach_Thrown_in b (l : list (string * Value)) acc log e :
  fst (forEach (storeField this b) l acc log) = Thrown e ->
  exists k v log0,
    In (k, v) l /\ fst (convertValue this v b log0) = Thrown e.
Proof.
  revert acc log.
  induction l as [ | [k v] l IH]; intros acc log Hrun; simpl in *.
  - discriminate.
  - unfold bind at 1, storeField at 1 in Hrun.
    pose proof (fst_bind_ret (convertValue this v b)
                  (fun h => obj_set k h acc) log) as Hfst.
    destruct (bind (convertValue this v b) _ log) as [[acc' | e'] l1] eqn:Hs;
      simpl in Hfst.
    + destruct (IH _ _ Hrun) as (k' & v' & log0 & Hin & Hv).
      exists k', v', log0. split; [now right | exact Hv].
    + simpl in Hrun. inversion Hrun; subst e'.
      destruct (fst (convertValue this v b log)) as [h | e'] eqn:Hv;
        [discriminate | ].
      inversion Hfst; subst e'.
      exists k, v, log. split; [now left | exact Hv].
Qed.

(** ** The log *)

(** X1. A conversion never alters the diagnostics already in the log: the
    log it leaves is the log it started on followed by its own
    diagnostics, and the value it returns and the diagnostics it adds do
    not depend on the log it started on. *)
Theorem convertValue_appends_to_log (v : Value)
  (b : ServerTimestampBehavior) (log : Log) :
  convertValue this v b log
  = (value_of this v b, (log ++ emitted this v b)%list).
Proof. apply framed_convertValue. Qed.

(** X2. The server timestamp behaviour only matters to server
    timestamps: a value with no server timestamp among its array
    elements and map fields converts the same way, value and log, under
    any two behaviours. *)
Theorem behavior_irrelevant_without_server_timestamp (v : Value) :
  pendingFree v = true ->
  forall b1 b2 log, convertValue this v b1 log = convertValue this v b2 log.
Proof.
  induction v using Value_nested_ind; simpl; intros Hfree b1 b2 log;
    try reflexivity; try discriminate.
  - unfold bind. rewrite (mapM_ext_in _ (fun v => convertValue this v b2));
      [reflexivity | ].
    intros a Hin log0. rewrite Forall_forall in H.
    exact (H a Hin (proj1 (forallb_forall _ _) Hfree a Hin) b1 b2 log0).
  - unfold bind.
    rewrite (forEach_ext_in _
               (fun key v (result : DocumentData) =>
                  bind (convertValue this v b2)
                       (fun h => ret (obj_set key h result))));
      [reflexivity | ].
    intros k v Hin acc log0. unfold bind. rewrite Forall_forall in H.
    pose proof (H (k, v) Hin
                  (proj1 (forallb_forall _ _) Hfree (k, v) Hin) b1 b2 log0)
      as Hv.
    simpl in Hv. now rewrite Hv.
Qed.

(** X3. Under [previous] a chain of pending server timestamps converts as
    the value the chain ends in, and to null when the chain ends without
    a previous value; the value the chain ends in is never itself a
    server timestamp. *)
Theorem previous_resolves_chain (v : Value) (log : Log) :
  convertValue this v previous log
  = match innermost v with
    | Some w => convertValue this w previous log
    | None => (Ok HNull, log)
    end
  /\ match innermost v with
     | Some w => typeOrder w <> Some ServerTimestampValue
     | None => True
     end.
Proof.
  induction v using Value_nested_ind; simpl;
    try (split; [reflexivity | discriminate]).
  - split; [reflexivity | exact I].
  - exact IHv.
Qed.

(** X4. The local database identity has no part in the value returned:
    a decoder with the same factories and any other database identity
    returns the same value or throws the same failure, from any log. *)
Theorem value_independent_of_database (db : DatabaseId) (v : Value)
  (b : ServerTimestampBehavior) (log1 log2 : Log) :
  fst (convertValue
         (mkUserDataWriter db (referenceFactory this) (bytesFactory this))
         v b log1)
  = fst (convertValue this v b log2).
Proof.
  revert b log1 log2.
  induction v using Value_nested_ind; intros b0 log1 log2; simpl;
    try reflexivity.
  - now destruct b0.
  - destruct b0; try reflexivity. apply IHv.
  - unfold convertReference, bind, hardAssert. simpl.
    destruct (isValidResourceName (fromString n)); simpl; [ | reflexivity].
    now destruct (DatabaseId_isEqual _ db), (DatabaseId_isEqual _ (databaseId this)).
  - rewrite !fst_bind_ret.
    rewrite (fun Hx => mapM_fst_ext _ (fun v => convertValue this v b0) l
                         Hx log1 log2);
      [reflexivity | ].
    intros a Hin l1 l2. rewrite Forall_forall in H. now apply H.
  - rewrite !fst_bind_ret.
    rewrite (fun Hx =>
               forEach_fst_ext _
                 (fun key v (result : DocumentData) =>
                    bind (convertValue this v b0)
                         (fun h => ret (obj_set key h result)))
                 l Hx [] log1 log2); [reflexivity | ].
    intros k v Hin acc l1 l2. rewrite !fst_bind_ret.
    rewrite Forall_forall in H.
    pose proof (H (k, v) Hin b0 l1 l2) as Hv. simpl in Hv.
    now rewrite Hv.
Qed.

(** X5. A conversion that reaches no valid reference into another
    database leaves the log as it found it, whether it returns or
    throws. *)
Theorem quiet_without_foreign_reference (v : Value)
  (b : ServerTimestampBehavior) :
  (forall name,
     visits b v (RefV name) ->
     isValidResourceName (fromString name) = true ->
     isLocal this name = true) ->
  forall log, snd (convertValue this v b log) = log.
Proof.
  revert b.
  induction v using Value_nested_ind; intros b0 Hlocal log; simpl;
    try reflexivity.
  - now destruct b0.
  - destruct b0; try reflexivity.
    apply IHv. intros name Hv. apply Hlocal. now constructor.
  - unfold convertReference, bind, hardAssert.
    destruct (isValidResourceName (fromString n)) eqn:Hvalid;
      [ | reflexivity].
    pose proof (Hlocal n (visits_here _ _) Hvalid) as Hn.
    unfold isLocal, foundDatabaseId in Hn. now rewrite Hn.
  - rewrite snd_bind_ret. apply mapM_quiet.
    intros a Hin log0. rewrite Forall_forall in H. apply (H a Hin).
    intros name Hv. apply Hlocal. now apply visits_element with a.
  - rewrite snd_bind_ret. apply forEach_quiet.
    intros k v Hin acc log0. rewrite snd_bind_ret.
    rewrite Forall_forall in H. apply (H (k, v) Hin).
    intros name Hv. apply Hlocal. now apply visits_field with k v.
Qed.

(** X6. A conversion that returns has added to the log exactly the
    diagnostics of the references it reached, one for each reference
    into another database, in the order of the traversal. *)
Theorem diagnostics_on_success (v : Value) (b : ServerTimestampBehavior)
  (log log' : Log) (h : HostValue) :
  convertValue this v b log = (Ok h, log') ->
  log' = (log ++ diagnostics this v b)%list.
Proof.
  revert b log log' h.
  induction v using Value_nested_ind; intros b0 log log' h0 Hrun;
    simpl in *;
    try (inversion Hrun; now rewrite app_nil_r).
  - destruct b0; inversion Hrun; now rewrite app_nil_r.
  - destruct b0; try (inversion Hrun; now rewrite app_nil_r).
    now apply IHv with h0.
  - unfold convertReference, bind, hardAssert in Hrun.
    destruct (isValidResourceName (fromString n)); simpl in Hrun;
      [ | discriminate].
    unfold isLocal, foundDatabaseId, keyOf.
    destruct (DatabaseId_isEqual _ (databaseId this)); simpl in Hrun;
      inversion Hrun; [now rewrite app_nil_r | reflexivity].
  - unfold bind, ret in Hrun.
    destruct (mapM _ l log) as [[hs | e] l1] eqn:Hl; [ | discriminate].
    inversion Hrun; subst.
    apply (fun Hd => mapM_log_Ok _ (fun v => diagnostics this v b0) l
                       Hd log hs _ Hl).
    intros a Hin log0 ha log1 Ha. rewrite Forall_forall in H.
    now apply (H a Hin) with ha.
  - change (forEach _ l []) with (forEach (storeField this b0) l []) in Hrun.
    unfold bind at 1 in Hrun.
    destruct (forEach (storeField this b0) l [] log) as [[r | e] l1] eqn:Hl;
      [ | discriminate].
    inversion Hrun; subst.
    apply (fun Hd => forEach_log_Ok (storeField this b0)
                       (fun v => diagnostics this v b0) l
                       Hd [] log r _ Hl).
    intros k v Hin acc log0 acc' log1 Hv. unfold storeField, bind, ret in Hv.
    destruct (convertValue this v b0 log0) as [[hv | e] l2] eqn:Hc;
      [ | discriminate].
    inversion Hv; subst. rewrite Forall_forall in H.
    now apply (H (k, v) Hin) with hv.
Qed.

(** ** Failures *)

(** X7. The first element of an array that throws decides the call:
    when the elements before it convert, the array throws the failure of
    that element, the later elements are not looked at, and the log
    holds the diagnostics emitted up to the failure.  The same holds of
    the fields of a map. *)
Theorem first_failure_wins (b : ServerTimestampBehavior) (v : Value)
  (e : Failure) (log : Log) :
  (forall l1 l2 : list Value,
     Forall (converts this b) l1 ->
     value_of this v b = Thrown e ->
     convertValue this (ArrayV (Some (l1 ++ v :: l2)%list)) b log
     = (Thrown e,
        (log ++ flat_map (fun x => emitted this x b) l1
             ++ emitted this v b)%list))
  /\ (forall (l1 l2 : list (string * Value)) k,
        Forall (fun kv => converts this b (snd kv)) l1 ->
        value_of this v b = Thrown e ->
        convertValue this (MapV (Some (l1 ++ (k, v) :: l2)%list)) b log
        = (Thrown e,
           (log ++ flat_map (fun kv => emitted this (snd kv) b) l1
                ++ emitted this v b)%list)).
Proof.
  split.
  - intros l1 l2 Hok He. simpl. unfold bind at 1.
    rewrite (mapM_first_failure (fun x => convertValue this x b) l1 l2 v e);
      try reflexivity; try assumption.
    + apply Forall_forall. intros x _. apply framed_convertValue.
    + apply framed_convertValue.
  - intros l1 l2 k Hok He. simpl. unfold bind at 1.
    change (forEach _ (l1 ++ (k, v) :: l2) [] log)
      with (forEach (storeField this b) (l1 ++ (k, v) :: l2) [] log).
    now rewrite (forEach_first_failure b l1 l2 k v e Hok He).
Qed.

(** X8. A failure names the value that caused it: a thrown
    [InvalidValueType] carries a reached value without a recognised
    tag, and a thrown [ReferenceValueNotValid] carries the resource name
    of a reached reference that fails the validation. *)
Theorem failure_names_offender (v : Value) (b : ServerTimestampBehavior)
  (log : Log) (e : Failure) :
  fst (convertValue this v b log) = Thrown e ->
  (exists w, visits b v w /\ typeOrder w = None /\ e = InvalidValueType w)
  \/ (exists name,
        visits b v (RefV name)
        /\ isValidResourceName (fromString name) = false
        /\ e = ReferenceValueNotValid name).
Proof.
  revert b log e.
  induction v using Value_nested_ind; intros b0 log e Hrun; simpl in Hrun;
    try discriminate.
  - destruct b0; discriminate.
  - destruct b0; try discriminate.
    destruct (IHv _ _ _ Hrun) as [(w & Hv & Hw) | (name & Hv & Hn)].
    + left. exists w. split; [now constructor | exact Hw].
    + right. exists name. split; [now constructor | exact Hn].
  - right. exists n.
    unfold convertReference, bind, hardAssert in Hrun.
    destruct (isValidResourceName (fromString n)) eqn:Hvalid; simpl in Hrun.
    + destruct (DatabaseId_isEqual _ _); discriminate.
    + inversion Hrun. repeat split. constructor.
  - rewrite fst_bind_ret in Hrun.
    destruct (fst (mapM _ l log)) as [hs | e'] eqn:Hl; [discriminate | ].
    inversion Hrun; subst e'.
    destruct (mapM_Thrown_in _ _ _ _ Hl) as (a & log0 & Hin & Ha).
    rewrite Forall_forall in H.
    destruct (H a Hin _ _ _ Ha) as [(w & Hv & Hw) | (name & Hv & Hn)].
    + left. exists w. split; [now apply visits_element with a | exact Hw].
    + right. exists name.
      split; [now apply visits_element with a | exact Hn].
  - rewrite fst_bind_ret in Hrun.
    change (forEach _ l [] log)
      with (forEach (storeField this b0) l [] log) in Hrun.
    destruct (fst (forEach (storeField this b0) l [] log))
      as [r | e'] eqn:Hl; [discriminate | ].
    inversion Hrun; subst e'.
    destruct (forEach_Thrown_in _ _ _ _ _ Hl) as (k & a & log0 & Hin & Ha).
    rewrite Forall_forall in H.
    destruct (H (k, a) Hin _ _ _ Ha) as [(w & Hv & Hw) | (name & Hv & Hn)].
    + left. exists w. split; [now apply visits_field with k a | exact Hw].
    + right. exists name.
      split; [now apply visits_field with k a | exact Hn].
  - inversion Hrun. left. exists UnsetV. repeat split. constructor.
Qed.

(** ** Composition and lookup *)

Lemma mapM_app {A B} (f : A -> M B) (l1 l2 : list A) log :
  mapM f (l1 ++ l2) log
  = match mapM f l1 log with
    | (Ok bs1, log1) =>
        match mapM f l2 log1 with
        | (Ok bs2, log2) => (Ok (bs1 ++ bs2)%list, log2)
        | (Thrown e, log2) => (Thrown e, log2)
        end
    | (Thrown e, log1) => (Thrown e, log1)
    end.
Proof.
  revert log. induction l1 as [ | a l1 IH]; intro log; simpl.
  - now destruct (mapM f l2 log) as [[bs | e] l'].
  - unfold bind at 1 3.
    destruct (f a log) as [[b | e] la]; [ | reflexivity].
    unfold bind, ret. rewrite IH.
    destruct (mapM f l1 la) as [[bs1 | e] lb]; [ | reflexivity].
    now destruct (mapM f l2 lb) as [[bs2 | e] lc].
Qed.

Lemma array_run (l : list Value) b log :
  convertValue this (ArrayV (Some l)) b log
  = match mapM (fun v => convertValue this v b) l log with
    | (Ok hs, log') => (Ok (HArray hs), log')
    | (Thrown e, log') => (Thrown e, log')
    end.
Proof. reflexivity. Qed.

(** X9. Arrays convert piecewise: when two arrays convert, their
    concatenation converts to the concatenation of the two results, and
    the log receives the diagnostics of the first followed by those of
    the second. *)
Theorem array_concatenation (l1 l2 : list Value)
  (b : ServerTimestampBehavior) (hs1 hs2 : list HostValue) :
  value_of this (ArrayV (Some l1)) b = Ok (HArray hs1) ->
  value_of this (ArrayV (Some l2)) b = Ok (HArray hs2) ->
  forall log,
    convertValue this (ArrayV (Some (l1 ++ l2)%list)) b log
    = (Ok (HArray (hs1 ++ hs2)%list),
       (log ++ emitted this (ArrayV (Some l1)) b
            ++ emitted this (ArrayV (Some l2)) b)%list).
Proof.
  unfold value_of, emitted. rewrite !array_run.
  intros H1 H2 log. rewrite array_run, mapM_app.
  assert (Hfr : forall l, framed (mapM (fun v => convertValue this v b) l)).
  { intro l. apply framed_mapM, Forall_forall. intros v _.
    apply framed_convertValue. }
  rewrite (Hfr l1 log).
  destruct (mapM _ l1 []) as [[a1 | e1] la]; simpl in H1; [ | discriminate].
  inversion H1; subst a1. simpl.
  rewrite (Hfr l2 (log ++ la)%list).
  destruct (mapM _ l2 []) as [[a2 | e2] lb]; simpl in H2; [ | discriminate].
  inversion H2; subst a2. simpl. now rewrite app_assoc.
Qed.

Lemma field_converted_get b (l : list (string * Value)) (o : DocumentData) :
  Forall2 (field_converted this b) l o ->
  NoDup (keys l) ->
  (forall k v, In (k, v) l ->
     exists hv, value_of this v b = Ok hv /\ obj_get k o = Some hv)
  /\ (forall k, ~ In k (keys l) -> obj_get k o = None).
Proof.
  induction 1 as [ | [k0 v0] [k0' h0] l o [Hk Hv] Hall IH]; intro Hnodup.
  - split; [intros k v [] | reflexivity].
  - simpl in Hk, Hv. subst k0'.
    inversion Hnodup as [ | ? ? Hfresh Hnodup']; subst.
    destruct (IH Hnodup') as [IHin IHout].
    split.
    + intros k v [Heq | Hin]; simpl.
      * inversion Heq; subst. exists h0. now rewrite String.eqb_refl.
      * destruct (String.eqb_spec k0 k) as [-> | _].
        -- exfalso. apply Hfresh. unfold keys.
           now apply (in_map fst l (k, v)).
        -- now apply IHin.
    + intros k Hout. simpl.
      destruct (String.eqb_spec k0 k) as [-> | _].
      * exfalso. apply Hout. now left.
      * apply IHout. intro Hin. apply Hout. now right.
Qed.

(** X10. The object a map converts to answers lookups as the wire map
    does: for a map with distinct field names that converts, the
    property of each field's name holds that field's converted value,
    and a name that is not a field of the map is not a property of the
    object. *)
Theorem converted_map_lookup (l : list (string * Value))
  (b : ServerTimestampBehavior) (log log' : Log) (h : HostValue) :
  NoDup (keys l) ->
  convertValue this (MapV (Some l)) b log = (Ok h, log') ->
  exists o,
    h = HObject o
    /\ (forall k v, In (k, v) l ->
          exists hv, value_of this v b = Ok hv /\ obj_get k o = Some hv)
    /\ (forall k, ~ In k (keys l) -> obj_get k o = None).
Proof.
  intros Hnodup Hrun. simpl in Hrun.
  change (forEach _ l []) with (forEach (storeField this b) l []) in Hrun.
  unfold bind at 1, ret in Hrun.
  destruct (forEach (storeField this b) l [] log) as [[r | e] l1] eqn:Hl;
    [ | discriminate].
  inversion Hrun; subst. exists r. split; [reflexivity | ].
  assert (Hr : fst (forEach (storeField this b) l [] log) = Ok r)
    by now rewrite Hl.
  apply (forEach_storeField_Ok this b l Hnodup [] log r
           (fun _ _ F => F)) in Hr.
  destruct Hr as (hfs & -> & Hall). simpl.
  now apply field_converted_get.
Qed.

End Facts.

End WriterExtras.

(** * The further properties on the concrete platform *)
Module ExtraExamples.

Import Writer Platform WriterFacts WriterExtras.

Lemma behavior_irrelevant_without_server_timestamp_witness :
  pendingFree referenceArray = true
  /\ convertValue otherWriter referenceArray none []
     = convertValue otherWriter referenceArray previous [].
Proof.
  split; [reflexivity | ].
  exact (behavior_irrelevant_without_server_timestamp otherWriter
           referenceArray eq_refl none previous []).
Defined.

Lemma previous_resolves_chain_witness :
  innermost chain = Some (StringV "x")
  /\ convertValue localWriter chain previous []
     = convertValue localWriter (StringV "x") previous []
  /\ typeOrder (StringV "x") <> Some ServerTimestampValue.
Proof.
  split; [reflexivity | ].
  exact (previous_resolves_chain localWriter chain []).
Defined.

Lemma quiet_without_foreign_reference_witness :
  snd (convertValue localWriter (ArrayV (Some [RefV docName; UnsetV]))
         estimate ["earlier"])
  = ["earlier"].
Proof.
  apply quiet_without_foreign_reference.
  intros name Hv _.
  inversion Hv as [ | ? ? v ? Hin Hv' | | ]; subst.
  destruct Hin as [<- | [<- | []]]; inversion Hv'; subst.
  reflexivity.
Defined.

Lemma diagnostics_on_success_witness :
  exists h log',
    convertValue otherWriter referenceArray none ["earlier"] = (Ok h, log')
    /\ log' = ("earlier" :: diagnostics otherWriter referenceArray none)
    /\ List.length (diagnostics otherWriter referenceArray none) = 2.
Proof.
  do 2 eexists. split; [reflexivity | split; [ | reflexivity]].
  exact (diagnostics_on_success otherWriter referenceArray none
           ["earlier"] _ _ eq_refl).
Defined.

Lemma first_failure_wins_witness :
  Forall (converts otherWriter none) [RefV docName]
  /\ value_of otherWriter UnsetV none = Thrown (InvalidValueType UnsetV)
  /\ exists msg,
       convertValue otherWriter brokenArray none []
       = (Thrown (InvalidValueType UnsetV), [msg]).
Proof.
  assert (Hok : Forall (converts otherWriter none) [RefV docName]).
  { constructor; [ | constructor]. eexists. reflexivity. }
  split; [exact Hok | split; [reflexivity | ]].
  eexists.
  exact (proj1 (first_failure_wins otherWriter none UnsetV
                  (InvalidValueType UnsetV) [])
           [RefV docName] [RefV "x/y"] Hok eq_refl).
Defined.

Lemma failure_names_offender_witness :
  fst (convertValue localWriter (ArrayV (Some [NullV; RefV "x/y"]))
         none [])
  = Thrown (ReferenceValueNotValid "x/y")
  /\ ((exists w,
         visits none (ArrayV (Some [NullV; RefV "x/y"])) w
         /\ typeOrder w = None
         /\ ReferenceValueNotValid "x/y" = InvalidValueType w)
      \/ (exists name,
            visits none (ArrayV (Some [NullV; RefV "x/y"])) (RefV name)
            /\ isValidResourceName (fromString name) = false
            /\ ReferenceValueNotValid "x/y" = ReferenceValueNotValid name)).
Proof.
  split; [reflexivity | ].
  exact (failure_names_offender localWriter
           (ArrayV (Some [NullV; RefV "x/y"])) none []
           (ReferenceValueNotValid "x/y") eq_refl).
Defined.

Lemma array_concatenation_witness :
  value_of otherWriter (ArrayV (Some [RefV docName])) none
  = Ok (HArray [HReference ["coll"; "doc"]])
  /\ value_of otherWriter (ArrayV (Some [StringV "x"])) none
     = Ok (HArray [HString "x"])
  /\ exists msg,
       convertValue otherWriter
         (ArrayV (Some [RefV docName; StringV "x"])) none []
       = (Ok (HArray [HReference ["coll"; "doc"]; HString "x"]), [msg]).
Proof.
  split; [reflexivity | split; [reflexivity | ]].
  eexists.
  exact (array_concatenation otherWriter [RefV docName] [StringV "x"] none
           [HReference ["coll"; "doc"]] [HString "x"] eq_refl eq_refl []).
Defined.

Lemma converted_map_lookup_witness :
  NoDup (keys pendingFields)
  /\ exists o,
       HObject [("a", HNull); ("b", HString "x")] = HObject o
       /\ (forall k v,
             In (k, v) pendingFields ->
             exists hv,
               value_of localWriter v previous = Ok hv
               /\ obj_get k o = Some hv)
       /\ (forall k, ~ In k (keys pendingFields) -> obj_get k o = None).
Proof.
  assert (Hnodup : NoDup (keys pendingFields)).
  { repeat constructor; simpl; intuition discriminate. }
  split; [exact Hnodup | ].
  exact (converted_map_lookup localWriter pendingFields previous [] []
           (HObject [("a", HNull); ("b", HString "x")]) Hnodup eq_refl).
Defined.

End ExtraExamples.
